(** * Shallow embedding of parts of the fiftyone app state layer

    Recoil atoms are modelled as fields of a snapshot record; a selector's
    [get: ({ get }) => ...] body becomes a pure function of the snapshot,
    and a batch of writes is applied to the snapshot before any selector
    is read again. *)

From Stdlib Require Import List String Bool ZArith Lia Sorting.Permutation Sorting.Sorted.
From stdpp Require Import base gmap sets strings pretty.
Import ListNotations.

(** ** recoil/groups.ts *)
Module Groups.

(** JS truthiness of a [string | null] value. *)
Definition truthy_str (o : option string) : bool :=
  match o with
  | Some s => negb (String.eqb s "")
  | None => false
  end.

(** [a || b] on two [string | null] values. *)
Definition js_or (a b : option string) : option string :=
  if truthy_str a then a else b.

Definition opt_str_eqb (a b : option string) : bool :=
  match a, b with
  | Some x, Some y => String.eqb x y
  | None, None => true
  | _, _ => false
  end.

(** The atoms the group selectors read.  [isDynamicGroup] and
    [parentMediaTypeSelector] are defined outside [groups.ts]; their
    current values are inputs of the snapshot. *)
Record State := mkState {
  mediaType : option string;
  isDynamicGroup : bool;
  parentMediaType : option string;
  sessionGroupSlice : option string;
  defaultGroupSlice : option string;
  similarityParameters : option string; (* an object or null *)
  selectedLabels : list string;
  selectedSamples : gset string;
}.

(** [isGroup = get(mediaType) === "group"] *)
Definition isGroup (s : State) : bool :=
  opt_str_eqb (mediaType s) (Some "group"%string).

(** [hasGroupSlices] *)
Definition hasGroupSlices (s : State) : bool :=
  isGroup s && (negb (isDynamicGroup s)
                || opt_str_eqb (parentMediaType s) (Some "group"%string)).

(** [groupSlice] getter *)
Definition groupSlice (s : State) : option string :=
  if isGroup s && hasGroupSlices s
  then js_or (sessionGroupSlice s) (defaultGroupSlice s)
  else None.

(** Writes to atoms.  [WResetSessionGroupSlice] is
    [set(sessionGroupSlice, new DefaultValue())], which resets the atom to
    its declared default [null]. *)
Inductive Write :=
| WMediaType (v : option string)
| WIsDynamicGroup (b : bool)
| WParentMediaType (v : option string)
| WSessionGroupSlice (v : option string)
| WResetSessionGroupSlice
| WDefaultGroupSlice (v : option string)
| WResetSimilarityParameters
| WSelectedLabels (v : list string)
| WSelectedSamples (v : gset string)
| WSessionSubscribeBefore (v : option string).

Definition apply_write (s : State) (w : Write) : State :=
  match w with
  | WMediaType v =>
      mkState v (isDynamicGroup s) (parentMediaType s) (sessionGroupSlice s)
        (defaultGroupSlice s) (similarityParameters s) (selectedLabels s)
        (selectedSamples s)
  | WIsDynamicGroup b =>
      mkState (mediaType s) b (parentMediaType s) (sessionGroupSlice s)
        (defaultGroupSlice s) (similarityParameters s) (selectedLabels s)
        (selectedSamples s)
  | WParentMediaType v =>
      mkState (mediaType s) (isDynamicGroup s) v (sessionGroupSlice s)
        (defaultGroupSlice s) (similarityParameters s) (selectedLabels s)
        (selectedSamples s)
  | WSessionGroupSlice v =>
      mkState (mediaType s) (isDynamicGroup s) (parentMediaType s) v
        (defaultGroupSlice s) (similarityParameters s) (selectedLabels s)
        (selectedSamples s)
  | WResetSessionGroupSlice =>
      mkState (mediaType s) (isDynamicGroup s) (parentMediaType s) None
        (defaultGroupSlice s) (similarityParameters s) (selectedLabels s)
        (selectedSamples s)
  | WDefaultGroupSlice v =>
      mkState (mediaType s) (isDynamicGroup s) (parentMediaType s)
        (sessionGroupSlice s) v (similarityParameters s) (selectedLabels s)
        (selectedSamples s)
  | WResetSimilarityParameters =>
      mkState (mediaType s) (isDynamicGroup s) (parentMediaType s)
        (sessionGroupSlice s) (defaultGroupSlice s) None (selectedLabels s)
        (selectedSamples s)
  | WSelectedLabels v =>
      mkState (mediaType s) (isDynamicGroup s) (parentMediaType s)
        (sessionGroupSlice s) (defaultGroupSlice s) (similarityParameters s) v
        (selectedSamples s)
  | WSelectedSamples v =>
      mkState (mediaType s) (isDynamicGroup s) (parentMediaType s)
        (sessionGroupSlice s) (defaultGroupSlice s) (similarityParameters s)
        (selectedLabels s) v
  | WSessionSubscribeBefore _ =>
      (* deferred write to the session object, outside the atom snapshot *)
      s
  end.

(** The argument of the [groupSlice] setter: a slice or a [DefaultValue]. *)
Inductive SliceArg :=
| SliceVal (v : option string)
| SliceDefaultValue.

(** [groupSlice] setter: the writes it issues, read against [s]. *)
Definition set_groupSlice (s : State) (slice : SliceArg) : list Write :=
  match similarityParameters s with
  | None =>
    [ (match slice with
       | SliceVal v =>
           if opt_str_eqb (defaultGroupSlice s) v
           then WResetSessionGroupSlice else WSessionGroupSlice v
       | SliceDefaultValue => WResetSessionGroupSlice
       end);
      WSelectedLabels [];
      WSelectedSamples ∅ ]
  | Some _ =>
    [ WSessionSubscribeBefore
        (match slice with SliceVal v => v | SliceDefaultValue => None end);
      WResetSimilarityParameters ]
  end.

(** One entry of a batch: a direct atom write, or a set of the writable
    [groupSlice] selector, whose setter reads the in-batch state. *)
Inductive Action :=
| ADirect (w : Write)
| ASetGroupSlice (slice : SliceArg).

Definition run_action (s : State) (a : Action) : State :=
  match a with
  | ADirect w => apply_write s w
  | ASetGroupSlice v => fold_left apply_write (set_groupSlice s v) s
  end.

Definition run_batch (s : State) (b : list Action) : State :=
  fold_left run_action b s.

Definition group_left_batch : list Write :=
  [WMediaType (Some "group"%string); WIsDynamicGroup false;
   WSessionGroupSlice (Some "left"%string)].

End Groups.

(** ** hooks/useUpdateSamples.ts *)
Module UpdateSamples.
Section Defs.
Context {Sample Rest : Type} (stringify : Sample -> string).

(** An entry of a looker store: [{ ...record, sample }] keeps [rest]. *)
Record ModalSample := mkModalSample { ms_sample : Sample; ms_rest : Rest }.

(** One element of the module-level [stores] array: its [samples] map and
    the sample each of its [lookers] displays. *)
Record SampleStore := mkSampleStore {
  samples : gmap string ModalSample;
  lookers : gmap string Sample;
}.

(** A Relay store record: its scalar fields and whether it was invalidated. *)
Record RelayRecord := mkRelayRecord {
  fields : gmap string string;
  invalidated : bool;
}.

Record World := mkWorld {
  stores : list SampleStore;
  relay : gmap string RelayRecord;
}.

(** [const record = sampleStore.samples.get(id); if (record) { ... }] *)
Definition update_store (id : string) (sample : Sample) (ss : SampleStore)
  : SampleStore :=
  match samples ss !! id with
  | None => ss
  | Some r =>
      mkSampleStore
        (<[id := mkModalSample sample (ms_rest r)]> (samples ss))
        (match lookers ss !! id with
         | Some _ => <[id := sample]> (lookers ss)
         | None => lookers ss
         end)
  end.

(** [const record = store.get(id); if (record) { if (sample) setValue
    else invalidateRecord }] *)
Definition patch_relay (sample : option Sample)
    (rs : gmap string RelayRecord) (id : string) : gmap string RelayRecord :=
  match rs !! id with
  | None => rs
  | Some r =>
      match sample with
      | Some smp =>
          <[id := mkRelayRecord (<["sample" := stringify smp]> (fields r))
                                (invalidated r)]> rs
      | None => <[id := mkRelayRecord (fields r) true]> rs
      end
  end.

(** [for (const sampleStore of stores) { ...; for (const id of ids) ... }] *)
Fixpoint loop_stores (id : string) (sample : Sample) (ss : list SampleStore)
    (rs : gmap string RelayRecord) : list SampleStore * gmap string RelayRecord :=
  match ss with
  | [] => ([], rs)
  | s :: tl =>
      let s' := update_store id sample s in
      let rs' := fold_left (patch_relay (Some sample))
                   [id; (id ++ "-modal")%string] rs in
      let '(tl', rs'') := loop_stores id sample tl rs' in
      (s' :: tl', rs'')
  end.

(** One iteration of [for (const [id, sample] of samples)]. *)
Definition update_one (w : World) (entry : string * option Sample) : World :=
  let '(id, sample) := entry in
  match sample with
  | None => w (* if (!sample) continue; *)
  | Some smp =>
      let '(ss', rs') := loop_stores id smp (stores w) (relay w) in
      mkWorld ss' rs'
  end.

(** The callback returned by [useUpdateSamples], run inside
    [commitLocalUpdate]. *)
Definition useUpdateSamples (w : World)
    (samples : list (string * option Sample)) : World :=
  fold_left update_one samples w.

(** A sample id the patch cannot find anywhere. *)
Definition absent_everywhere
    (w : World) (id : string) : Prop :=
  Forall (fun st => samples st !! id = None) (stores w) /\
  relay w !! id = None /\ relay w !! (id ++ "-modal")%string = None.

End Defs.

(** A world where only the modal record of sample ["a"] exists. *)
Definition world_modal_only : World (Sample := string) (Rest := unit) :=
  mkWorld [mkSampleStore ∅ ∅]
          {["a-modal"%string := mkRelayRecord ∅ false]}.

End UpdateSamples.

(** ** recoil/pathData/lightningString.ts *)
Module Lightning.

(** A JS array: an allocation identity and its elements. *)
Record JSArray := mkJSArray { arr_id : nat; arr_elems : list string }.

(** The first element of the resolved [lightningQuery] result. *)
Record LightningResult := mkLightningResult {
  typename : string;
  values : option JSArray;
}.

Record Params := mkParams {
  path : string;
  exclude : option (list string);
  index : option string;
  search : option string;
}.

Inductive Outcome :=
| Throw (msg : string)
| ReturnNull
| ReturnArray (a : JSArray).

(** [lightningStringResults(params)] getter on the resolved [data];
    [next_id] is the identity the next allocated array receives. *)
Definition lightningStringResults (params : Params) (data : LightningResult)
    (next_id : nat) : Outcome * nat :=
  if negb (String.eqb (typename data) "StringLightningResult")
     && negb (String.eqb (typename data) "ObjectIdLightningResult")
  then (Throw ("unexpected " ++ typename data ++ " for path '" ++ path params
               ++ "' in lightningStringResults")%string, next_id)
  else
    match values data with
    | None => (ReturnNull, next_id)
    | Some a => (ReturnArray (mkJSArray next_id (arr_elems a)), S next_id)
    end.

Definition is_throw (o : Outcome) : bool :=
  match o with Throw _ => true | _ => false end.

Definition is_string_result (data : LightningResult) : Prop :=
  typename data = "StringLightningResult"%string \/
  typename data = "ObjectIdLightningResult"%string.

End Lightning.

(** ** Persistence effect of [groupMediaIsCarouselVisibleSetting] *)
Module Persistence.

Inductive ValueClass := VBoolean | VString | VNumber | VStructured.

Inductive JSValue :=
| JBool (b : bool)
| JString (s : string)
| JNumber (z : Z)
| JStructured (entries : list (string * string)).

Definition class_of (v : JSValue) : ValueClass :=
  match v with
  | JBool _ => VBoolean
  | JString _ => VString
  | JNumber _ => VNumber
  | JStructured _ => VStructured
  end.

Definition class_eqb (a b : ValueClass) : bool :=
  match a, b with
  | VBoolean, VBoolean | VString, VString
  | VNumber, VNumber | VStructured, VStructured => true
  | _, _ => false
  end.

(** Result of the persistence collaborator's [get(key)]. *)
Inductive StorageRead :=
| Stored (raw : string)
| NotStored
| StorageFailed.

Section Effect.
Context (decode : string -> option JSValue).

(** Modelled from the spec: the initialisation half of
    [getBrowserStorageEffectForKey] (recoil/customEffects.ts, not present):
    "if a stored value exists and matches the Cell's declared value class
    ... uses it as the initial value ... Invalid or corrupt stored data
    silently falls back to the declared default". *)
Definition hydrate (vc : ValueClass) (dflt : JSValue) (r : StorageRead)
  : JSValue :=
  match r with
  | Stored raw =>
      match decode raw with
      | Some v => if class_eqb (class_of v) vc then v else dflt
      | None => dflt
      end
  | NotStored | StorageFailed => dflt
  end.

End Effect.

(** [groupMediaIsCarouselVisibleSetting]: boolean class, default [true]. *)
Definition groupMediaIsCarouselVisibleSetting_init
    (decode : string -> option JSValue) (r : StorageRead) : JSValue :=
  hydrate decode VBoolean (JBool true) r.

(** A JSON-like decoder for the examples: booleans only. *)
Definition decode_bool (raw : string) : option JSValue :=
  if String.eqb raw "true" then Some (JBool true)
  else if String.eqb raw "false" then Some (JBool false)
  else None.

End Persistence.

(** ** recoil/groups.ts: slices, 3D slices and the modal *)
Module GroupsMore.
Import Groups.

(** [Array.prototype.sort()] on strings: ascending code-unit order (byte
    order for [string]), as an insertion sort. *)
Fixpoint insert_sorted (x : string) (l : list string) : list string :=
  match l with
  | [] => [x]
  | y :: tl => if String.leb x y then x :: l else y :: insert_sorted x tl
  end.

Fixpoint js_sort (l : list string) : list string :=
  match l with
  | [] => []
  | x :: tl => insert_sorted x (js_sort tl)
  end.

(** [arr.join(sep)] *)
Fixpoint js_join (sep : string) (l : list string) : string :=
  match l with
  | [] => ""
  | [x] => x
  | x :: tl => x ++ sep ++ js_join sep tl
  end.

(** A selector's outcome: a value, or the error its body throws. *)
Inductive Res (A : Type) :=
| Ok (a : A)
| Err (msg : string).
Arguments Ok {A} a.
Arguments Err {A} msg.

Record GroupMediaType := mkGroupMediaType {
  gmt_name : string;
  gmt_mediaType : string;
}.

(** The atoms read by the slice selectors, besides those of [State]. *)
Record Modal := mkModal {
  groups : State;
  datasetGroupMediaTypes : list GroupMediaType; (* get(dataset).groupMediaTypes *)
  modalGroupSlice : option string;
  pinned3d : bool;
  pinned3DSampleSlice : option string;
  active3dSlices : list string;
}.

Section Selectors.
(** [is3d] and [isFo3d] come from [@fiftyone/utilities]. *)
Context (is3d isFo3d : string -> bool).

Definition groupMediaTypes (m : Modal) : list GroupMediaType :=
  if isGroup (groups m) then datasetGroupMediaTypes m else [].

Definition groupSlices (m : Modal) : list string :=
  if hasGroupSlices (groups m)
  then js_sort (map gmt_name (groupMediaTypes m))
  else [].

Definition all3dSlices (m : Modal) : list string :=
  map gmt_name (List.filter (fun t => is3d (gmt_mediaType t)) (groupMediaTypes m)).

Definition allNon3dSlices (m : Modal) : list string :=
  map gmt_name
    (List.filter (fun t => negb (is3d (gmt_mediaType t))) (groupMediaTypes m)).

Definition hasMultiple3dSlices (m : Modal) : bool :=
  1 <? length (all3dSlices m).

Definition fo3dSlice (m : Modal) : Res (option string) :=
  let fo3dSlices :=
    map gmt_name (List.filter (fun t => isFo3d (gmt_mediaType t)) (groupMediaTypes m)) in
  if 1 <? length fo3dSlices
  then Err "can't have more than one fo3d slice"
  else Ok (head fo3dSlices).

Definition currentSlice (modal : bool) (m : Modal) : option string :=
  if negb (isGroup (groups m)) then None else
  let slice := if modal then modalGroupSlice m else groupSlice (groups m) in
  if negb (truthy_str slice) || (modal && pinned3d m)
  then pinned3DSampleSlice m
  else slice.

Definition currentSlices (modal : bool) (m : Modal) : option (list string) :=
  if negb (isGroup (groups m)) then None else
  let slice := if modal then modalGroupSlice m else groupSlice (groups m) in
  if negb (truthy_str slice) || (modal && pinned3d m)
  then Some (active3dSlices m)
  else Some (flat_map (fun s => if truthy_str s then option_list s else [])
                      [slice]).

Definition activeSliceDescriptorLabel (m : Modal) : Res (option string) :=
  let currentSliceValue := currentSlice true m in
  match fo3dSlice m with
  | Err e => Err e
  | Ok activeFo3dSlice =>
      let active3dSlicesValue := active3dSlices m in
      if negb (pinned3d m) then Ok currentSliceValue
      else if truthy_str activeFo3dSlice then Ok activeFo3dSlice
      else
        match length active3dSlicesValue with
        | 1 => Ok (head active3dSlicesValue)
        | 2 => Ok (Some (js_join " and " active3dSlicesValue))
        | n => Ok (Some (pretty n ++ " slices")%string)
        end
  end.

End Selectors.

(** A view stage; [GROUP_BY_VIEW_STAGE] is the class name exported by
    [recoil/view.ts]. *)
Record Stage := mkStage { _cls : string; kwargs : list (string * string) }.

Definition groupView (GROUP_BY_VIEW_STAGE : string) (view : list Stage)
  : list Stage :=
  List.filter (fun stage => negb (String.eqb (_cls stage) GROUP_BY_VIEW_STAGE)) view.

(** Parameters of [groupSamples]; [None] is an omitted (undefined) key. *)
Record GroupSamplesParams := mkGroupSamplesParams {
  p_slices : list string;
  p_count : option (option nat);
  p_paginationData : option bool;
}.

Record GroupSamplesVariables := mkGroupSamplesVariables {
  v_count : option nat;
  v_dataset : string;
  v_view : list Stage;
  v_slice : option string;
  v_id : option string;
  v_slices : list string;
  v_paginationData : bool;
}.

(** [variables: ({ slices, count = null, paginationData = true }) => ...];
    a destructuring default applies only to an undefined key. *)
Definition groupSamples_variables (p : GroupSamplesParams) (s : State)
    (datasetName : string) (view : list Stage) (groupIdValue : option string)
  : GroupSamplesVariables :=
  let count := match p_count p with None => None | Some c => c end in
  let paginationData :=
    match p_paginationData p with None => true | Some b => b end in
  mkGroupSamplesVariables count datasetName view (groupSlice s) groupIdValue
    (p_slices p) paginationData.

Section SampleMaps.
(** [ModalSample] (recoil/modal.ts) with its [sample]; [getPath] is
    lodash's [get]. *)
Context {MS Sample : Type} (sample_of : MS -> Sample)
        (getPath : Sample -> string -> string).

(** [all3dSlicesToSampleMap]: [Object.fromEntries], a later entry with the
    same key overwrites an earlier one. *)
Definition all3dSlicesToSampleMap (groupField : string) (threedSamples : list MS)
  : gmap string MS :=
  fold_left (fun acc s =>
               <[getPath (sample_of s) (groupField ++ ".name") := s]> acc)
            threedSamples ∅.

Definition active3dSlicesToSampleMap (active : list string) (modalSample : MS)
    (all : gmap string MS) : gmap string MS :=
  match active with
  | [] => {["default"%string := modalSample]}
  | _ => filter (fun kv => kv.1 ∈ active) all
  end.

End SampleMaps.

End GroupsMore.

(** * Properties *)

Module GroupsFacts.
Import Groups.

Lemma run_batch_direct (s : State) (ws : list Write) :
  run_batch s (map ADirect ws) = fold_left apply_write ws s.
Proof.
  revert s; induction ws as [|w ws IH]; intros s; simpl; [reflexivity|].
  apply IH.
Qed.

Lemma run_batch_app (s : State) (b1 b2 : list Action) :
  run_batch s (b1 ++ b2) = run_batch (run_batch s b1) b2.
Proof. unfold run_batch. apply fold_left_app. Qed.

(** Writes drawn from a set whose members pairwise commute may be applied
    in any order. *)
Lemma fold_apply_write_perm (W : list Write) :
  (forall x y s, In x W -> In y W ->
     apply_write (apply_write s x) y = apply_write (apply_write s y) x) ->
  forall l1 l2, Permutation l1 l2 -> incl l1 W ->
  forall s, fold_left apply_write l1 s = fold_left apply_write l2 s.
Proof.
  intros Hcomm l1 l2 Hp.
  induction Hp as [|x l1 l2 Hp IH|x y l|l1 l2 l3 H12 IH12 H23 IH23];
    intros Hincl s; simpl.
  - reflexivity.
  - apply IH. intros z Hz. apply Hincl. right. exact Hz.
  - rewrite Hcomm; [reflexivity| |]; apply Hincl; simpl; auto.
  - rewrite IH12 by exact Hincl. apply IH23.
    intros z Hz. apply Hincl. apply (Permutation_in z (Permutation_sym H12)).
    exact Hz.
Qed.

Lemma group_left_batch_commute (x y : Write) (s : State) :
  In x group_left_batch -> In y group_left_batch ->
  apply_write (apply_write s x) y = apply_write (apply_write s y) x.
Proof.
  unfold group_left_batch; simpl.
  intros Hx Hy; destruct s;
    repeat (destruct Hx as [<-|Hx]); try contradiction;
    repeat (destruct Hy as [<-|Hy]); try contradiction; reflexivity.
Qed.

(** ** C1 *)

(** Claim C1: starting from a snapshot where [isGroup] is false, so that
    [groupSlice] reads [null], a batch writing (in any order) the media type
    ["group"] (so [isGroup] is true), a non-dynamic group (so
    [hasGroupSlices] is true) and [sessionGroupSlice = "left"] leaves a
    snapshot on which [isGroup] and [hasGroupSlices] are true and
    [groupSlice] reads ["left"]. *)
Theorem groupSlice_batch_left (s : State) (ws : list Write) :
  isGroup s = false ->
  Permutation ws group_left_batch ->
  groupSlice s = None /\
  isGroup (run_batch s (map ADirect ws)) = true /\
  hasGroupSlices (run_batch s (map ADirect ws)) = true /\
  groupSlice (run_batch s (map ADirect ws)) = Some "left"%string.
Proof.
  intros Hg Hp.
  rewrite run_batch_direct.
  rewrite (fold_apply_write_perm group_left_batch group_left_batch_commute
             ws group_left_batch Hp).
  - unfold groupSlice. rewrite Hg. simpl.
    destruct s; cbn. repeat split; reflexivity.
  - intros z Hz. apply (Permutation_in z Hp). exact Hz.
Qed.

Lemma groupSlice_batch_left_witness :
  let s0 := mkState (Some "image"%string) true None None
              (Some "right"%string) None [] ∅ in
  let ws := [WSessionGroupSlice (Some "left"%string); WIsDynamicGroup false;
             WMediaType (Some "group"%string)] in
  isGroup s0 = false /\ Permutation ws group_left_batch /\
  (groupSlice s0 = None /\
   isGroup (run_batch s0 (map ADirect ws)) = true /\
   hasGroupSlices (run_batch s0 (map ADirect ws)) = true /\
   groupSlice (run_batch s0 (map ADirect ws)) = Some "left"%string).
Proof.
  intros s0 ws.
  assert (Hp : Permutation ws group_left_batch).
  { exact (Permutation_sym (Permutation_rev group_left_batch)). }
  assert (Hg : isGroup s0 = false) by reflexivity.
  split; [exact Hg|]. split; [exact Hp|].
  exact (groupSlice_batch_left s0 ws Hg Hp).
Defined.

(** ** C5 *)

(** Claim C5: within a batch, when [similarityParameters] is unset in the
    in-batch snapshot, setting [groupSlice] to a slice issues exactly three
    writes: [sessionGroupSlice] is reset to its default when the slice
    equals [defaultGroupSlice] and set to the slice otherwise,
    [selectedLabels] becomes [[]] and [selectedSamples] becomes the empty
    set; these writes are applied in the same batch, leaving the other atoms
    as the earlier writes of the batch left them. *)
Theorem groupSlice_set_unset_similarity (s : State) (pre : list Action)
    (slice : option string) :
  similarityParameters (run_batch s pre) = None ->
  let s1 := run_batch s pre in
  let s2 := run_batch s (pre ++ [ASetGroupSlice (SliceVal slice)]) in
  set_groupSlice s1 (SliceVal slice) =
    [ (if opt_str_eqb (defaultGroupSlice s1) slice
       then WResetSessionGroupSlice else WSessionGroupSlice slice);
      WSelectedLabels []; WSelectedSamples ∅ ] /\
  sessionGroupSlice s2 =
    (if opt_str_eqb (defaultGroupSlice s1) slice then None else slice) /\
  selectedLabels s2 = [] /\
  selectedSamples s2 = ∅ /\
  mediaType s2 = mediaType s1 /\
  isDynamicGroup s2 = isDynamicGroup s1 /\
  parentMediaType s2 = parentMediaType s1 /\
  defaultGroupSlice s2 = defaultGroupSlice s1 /\
  similarityParameters s2 = None.
Proof.
  intros Hsim s1 s2.
  assert (Hw : set_groupSlice s1 (SliceVal slice) =
    [ (if opt_str_eqb (defaultGroupSlice s1) slice
       then WResetSessionGroupSlice else WSessionGroupSlice slice);
      WSelectedLabels []; WSelectedSamples ∅ ]).
  { unfold set_groupSlice. fold s1 in Hsim. rewrite Hsim. reflexivity. }
  unfold s2. rewrite run_batch_app. fold s1.
  cbn [run_batch fold_left run_action]. rewrite Hw.
  fold s1 in Hsim.
  destruct (opt_str_eqb (defaultGroupSlice s1) slice);
    destruct s1 as [m d p sg dg sp sl ss]; cbn in *;
    repeat split; auto.
Qed.

Lemma groupSlice_set_unset_similarity_witness :
  let s := mkState (Some "group"%string) false None (Some "right"%string)
             (Some "left"%string) None ["lbl"%string] {["smp"%string]} in
  let pre := [ADirect (WSessionGroupSlice (Some "center"%string))] in
  similarityParameters (run_batch s pre) = None /\
  sessionGroupSlice (run_batch s (pre ++ [ASetGroupSlice
                       (SliceVal (Some "left"%string))])) = None.
Proof.
  intros s pre.
  assert (H : similarityParameters (run_batch s pre) = None) by reflexivity.
  split; [exact H|].
  destruct (groupSlice_set_unset_similarity s pre (Some "left"%string) H)
    as [_ [Hs _]].
  rewrite Hs. reflexivity.
Defined.

End GroupsFacts.

Module UpdateSamplesFacts.
Import UpdateSamples.

Section Facts.
Context {Sample Rest : Type} (stringify : Sample -> string).

Lemma update_store_absent (id : string) (smp : Sample)
    (ss : SampleStore (Sample := Sample) (Rest := Rest)) :
  samples ss !! id = None -> update_store id smp ss = ss.
Proof. intros H. unfold update_store. rewrite H. reflexivity. Qed.

Lemma patch_relay_absent (sample : option Sample)
    (rs : gmap string RelayRecord) (id : string) :
  rs !! id = None -> patch_relay stringify sample rs id = rs.
Proof. intros H. unfold patch_relay. rewrite H. reflexivity. Qed.

Lemma loop_stores_absent (id : string) (smp : Sample)
    (ss : list (SampleStore (Sample := Sample) (Rest := Rest)))
    (rs : gmap string RelayRecord) :
  Forall (fun st => samples st !! id = None) ss ->
  rs !! id = None -> rs !! (id ++ "-modal")%string = None ->
  loop_stores stringify id smp ss rs = (ss, rs).
Proof.
  intros Hss Hid Hmod. induction Hss as [|st tl Hst Htl IH]; simpl.
  - reflexivity.
  - rewrite (patch_relay_absent _ _ _ Hid), (patch_relay_absent _ _ _ Hmod).
    rewrite IH, (update_store_absent _ _ _ Hst). reflexivity.
Qed.

(** ** C6 (amended) *)

(** Claim C6, as amended: [useUpdateSamples] on sample ids that are
    absent from every looker sample store and whose records [id] and
    [id-modal] are both absent from the Relay store returns normally and
    leaves the whole world (looker stores and Relay store) unchanged. *)
Theorem useUpdateSamples_absent_noop
    (w : World (Sample := Sample) (Rest := Rest))
    (entries : list (string * option Sample)) :
  Forall (fun e => absent_everywhere w (fst e)) entries ->
  useUpdateSamples stringify w entries = w.
Proof.
  unfold useUpdateSamples.
  induction 1 as [|[id sample] tl [Hss [Hid Hmod]] Htl IH]; simpl.
  - reflexivity.
  - destruct sample as [smp|]; [|exact IH].
    rewrite (loop_stores_absent id smp _ _ Hss Hid Hmod).
    destruct w as [ss rs]. exact IH.
Qed.

End Facts.

(** Claim C6, as stated, fails: ["a"] is not a record of the Relay store,
    yet patching sample ["a"] writes the [sample] field of the existing
    record ["a-modal"]. *)
Lemma useUpdateSamples_missing_id_not_noop :
  relay world_modal_only !! "a"%string = None /\
  useUpdateSamples (fun s : string => s) world_modal_only
    [("a"%string, Some "x"%string)] <> world_modal_only.
Proof.
  split; [reflexivity|].
  intros H.
  apply (f_equal (fun w => option_map (fun r => fields r !! "sample"%string)
                             (relay w !! "a-modal"%string))) in H.
  vm_compute in H. discriminate H.
Qed.

Lemma useUpdateSamples_absent_noop_witness :
  let w := mkWorld (Sample := string) (Rest := unit)
             [mkSampleStore {["b"%string := mkModalSample "y"%string tt]} ∅]
             {["b"%string := mkRelayRecord ∅ false]} in
  Forall (fun e => absent_everywhere w (fst e))
         [("a"%string, Some "x"%string)] /\
  useUpdateSamples (fun s : string => s) w [("a"%string, Some "x"%string)] = w.
Proof.
  intros w.
  assert (H : Forall (fun e => absent_everywhere w (fst e))
                     [("a"%string, Some "x"%string)]).
  { repeat constructor. }
  split; [exact H|].
  exact (useUpdateSamples_absent_noop (fun s : string => s) w _ H).
Defined.

End UpdateSamplesFacts.

Module LightningFacts.
Import Lightning.

(** ** C10 *)

(** Claim C10: [lightningStringResults] throws exactly when the result's
    [__typename] is neither ["StringLightningResult"] nor
    ["ObjectIdLightningResult"]; with a matching typename and no [values]
    it returns [null]; otherwise it returns a newly allocated array with the
    same elements, distinct from the cached [values] array. *)
Theorem lightningStringResults_outcomes (params : Params)
    (data : LightningResult) (next_id : nat) :
  (is_throw (fst (lightningStringResults params data next_id)) = true <->
     ~ is_string_result data) /\
  (is_string_result data -> values data = None ->
     fst (lightningStringResults params data next_id) = ReturnNull) /\
  (forall a, is_string_result data -> values data = Some a ->
     arr_id a < next_id ->
     exists b, fst (lightningStringResults params data next_id) = ReturnArray b
            /\ arr_elems b = arr_elems a /\ arr_id b <> arr_id a).
Proof.
  unfold lightningStringResults, is_string_result.
  destruct (String.eqb_spec (typename data) "StringLightningResult") as [E1|E1];
  destruct (String.eqb_spec (typename data) "ObjectIdLightningResult") as [E2|E2];
  cbn [negb andb].
  4: { split; [|split].
       - split; [intros _ [H|H]; contradiction | reflexivity].
       - intros [H|H]; contradiction.
       - intros a [H|H]; contradiction. }
  all: split; [|split];
    [ destruct (values data); cbn;
        (split; [discriminate| intros H; exfalso; apply H; auto])
    | intros _ ->; reflexivity
    | intros a _ -> Ha; eexists; split; [reflexivity|];
        cbn; split; [reflexivity|lia] ].
Qed.

Lemma lightningStringResults_outcomes_witness :
  let p := mkParams "tags" None None None in
  let a := mkJSArray 2 ["x"%string; "y"%string] in
  let d := mkLightningResult "StringLightningResult" (Some a) in
  is_string_result d /\ values d = Some a /\ arr_id a < 5 /\
  exists b, fst (lightningStringResults p d 5) = ReturnArray b
         /\ arr_elems b = arr_elems a /\ arr_id b <> arr_id a.
Proof.
  intros p a d.
  assert (Hs : is_string_result d) by (left; reflexivity).
  assert (Hv : values d = Some a) by reflexivity.
  assert (Hl : arr_id a < 5) by (cbn; lia).
  split; [exact Hs|]. split; [exact Hv|]. split; [exact Hl|].
  destruct (lightningStringResults_outcomes p d 5) as [_ [_ H3]].
  exact (H3 a Hs Hv Hl).
Defined.

Example lightningStringResults_unexpected :
  fst (lightningStringResults (mkParams "tags" None None None)
         (mkLightningResult "IntLightningResult" None) 0)
  = Throw "unexpected IntLightningResult for path 'tags' in lightningStringResults".
Proof. reflexivity. Qed.

End LightningFacts.

Module PersistenceFacts.
Import Persistence.

Lemma class_eqb_true (a b : ValueClass) : class_eqb a b = true <-> a = b.
Proof. destruct a, b; cbn; split; congruence. Qed.

(** ** C9 *)

(** Claim C9 (modelled from the spec): on initialisation a Cell with a
    persistence effect takes the stored value when one exists, decodes and
    has the declared value class; in every other case (nothing stored, a
    failed read, undecodable or wrongly-typed data) it takes the declared
    default.  [hydrate] is total, so no case throws. *)
Theorem hydrate_stored_or_default (decode : string -> option JSValue)
    (vc : ValueClass) (dflt : JSValue) (r : StorageRead) :
  (exists raw v, r = Stored raw /\ decode raw = Some v /\ class_of v = vc /\
                 hydrate decode vc dflt r = v) \/
  (hydrate decode vc dflt r = dflt /\
   ~ (exists raw v, r = Stored raw /\ decode raw = Some v /\ class_of v = vc)).
Proof.
  destruct r as [raw| |].
  - cbn. destruct (decode raw) as [v|] eqn:Hd.
    + destruct (class_eqb (class_of v) vc) eqn:Hc.
      * left. exists raw, v. apply class_eqb_true in Hc. auto.
      * right. split; [reflexivity|].
        intros (raw' & v' & Hr & Hd' & Hc'). injection Hr as <-.
        rewrite Hd in Hd'. injection Hd' as <-.
        apply class_eqb_true in Hc'. congruence.
    + right. split; [reflexivity|].
      intros (raw' & v' & Hr & Hd' & _). injection Hr as <-. congruence.
  - right. split; [reflexivity|]. intros (? & ? & H & _). discriminate.
  - right. split; [reflexivity|]. intros (? & ? & H & _). discriminate.
Qed.

Example carousel_setting_stored :
  groupMediaIsCarouselVisibleSetting_init decode_bool (Stored "false")
  = JBool false.
Proof. reflexivity. Qed.

Example carousel_setting_corrupt :
  groupMediaIsCarouselVisibleSetting_init decode_bool (Stored "{oops")
  = JBool true.
Proof. reflexivity. Qed.

End PersistenceFacts.

Module GroupsMoreFacts.
Import Groups GroupsMore.

Lemma opt_str_eqb_true (a b : option string) : opt_str_eqb a b = true -> a = b.
Proof.
  destruct a as [x|], b as [y|]; cbn; try discriminate; [|reflexivity].
  intros H. apply String.eqb_eq in H. subst. reflexivity.
Qed.

Lemma hasGroupSlices_isGroup (s : State) :
  hasGroupSlices s = true -> isGroup s = true.
Proof. unfold hasGroupSlices. intros H. apply andb_prop in H. tauto. Qed.

Lemma groupSlice_frame (s s' : State) :
  mediaType s' = mediaType s -> isDynamicGroup s' = isDynamicGroup s ->
  parentMediaType s' = parentMediaType s ->
  groupSlice s' = if isGroup s && hasGroupSlices s
                  then js_or (sessionGroupSlice s') (defaultGroupSlice s')
                  else None.
Proof.
  intros H1 H2 H3. unfold groupSlice, hasGroupSlices, isGroup.
  rewrite H1, H2, H3. reflexivity.
Qed.

(** Setting [groupSlice] to a non-empty slice, in a group with slices and
    without similarity parameters, then reading it returns that slice. *)
Theorem groupSlice_set_get (s : State) (v : string) :
  hasGroupSlices s = true -> similarityParameters s = None -> v <> ""%string ->
  groupSlice (run_batch s [ASetGroupSlice (SliceVal (Some v))]) = Some v.
Proof.
  intros Hh Hsim Hv.
  pose proof (hasGroupSlices_isGroup s Hh) as Hg.
  unfold run_batch; cbn [fold_left run_action]; unfold set_groupSlice.
  rewrite Hsim.
  rewrite (groupSlice_frame s) by
    (destruct (opt_str_eqb (defaultGroupSlice s) (Some v)); reflexivity).
  rewrite Hg, Hh. cbn [andb].
  destruct (opt_str_eqb (defaultGroupSlice s) (Some v)) eqn:E; cbn.
  - apply opt_str_eqb_true in E. rewrite E. reflexivity.
  - unfold js_or, truthy_str. destruct (String.eqb_spec v "") as [->|_];
      [contradiction|reflexivity].
Qed.

Lemma groupSlice_set_get_witness :
  let s := mkState (Some "group"%string) false None None
             (Some "left"%string) None [] ∅ in
  hasGroupSlices s = true /\ similarityParameters s = None /\
  "right"%string <> ""%string /\
  groupSlice (run_batch s [ASetGroupSlice (SliceVal (Some "right"%string))])
    = Some "right"%string.
Proof.
  intros s.
  assert (H1 : hasGroupSlices s = true) by reflexivity.
  assert (H2 : similarityParameters s = None) by reflexivity.
  assert (H3 : "right"%string <> ""%string) by discriminate.
  split; [exact H1|]. split; [exact H2|]. split; [exact H3|].
  exact (groupSlice_set_get s "right" H1 H2 H3).
Defined.

(** With similarity parameters set, setting [groupSlice] only resets
    [similarityParameters]; the slice read, [sessionGroupSlice] and the
    selections are left as they were (the session update is deferred). *)
Theorem groupSlice_set_with_similarity (s : State) (pre : list Action)
    (v : SliceArg) :
  similarityParameters (run_batch s pre) <> None ->
  let s1 := run_batch s pre in
  let s2 := run_batch s (pre ++ [ASetGroupSlice v]) in
  similarityParameters s2 = None /\
  groupSlice s2 = groupSlice s1 /\
  sessionGroupSlice s2 = sessionGroupSlice s1 /\
  selectedLabels s2 = selectedLabels s1 /\
  selectedSamples s2 = selectedSamples s1.
Proof.
  intros Hsim s1 s2. unfold s2.
  rewrite GroupsFacts.run_batch_app. fold s1. fold s1 in Hsim.
  unfold run_batch; cbn [fold_left run_action]. unfold set_groupSlice.
  destruct (similarityParameters s1) eqn:E; [|contradiction].
  destruct s1; cbn in *. repeat split; reflexivity.
Qed.

Lemma groupSlice_set_with_similarity_witness :
  let s := mkState (Some "group"%string) false None (Some "left"%string)
             None (Some "{}"%string) [] ∅ in
  similarityParameters (run_batch s []) <> None /\
  groupSlice (run_batch s ([] ++ [ASetGroupSlice (SliceVal (Some "right"%string))]))
    = Some "left"%string.
Proof.
  intros s.
  assert (H : similarityParameters (run_batch s []) <> None) by discriminate.
  split; [exact H|].
  destruct (groupSlice_set_with_similarity s [] (SliceVal (Some "right"%string)) H)
    as [_ [Hg _]].
  rewrite Hg. reflexivity.
Defined.

End GroupsMoreFacts.

Module SlicesFacts.
Import Groups GroupsMore.

Definition str_le (a b : string) : Prop := String.leb a b = true.

Lemma insert_sorted_perm (x : string) (l : list string) :
  Permutation (insert_sorted x l) (x :: l).
Proof.
  induction l as [|y tl IH]; cbn; [reflexivity|].
  destruct (String.leb x y); [reflexivity|].
  rewrite IH. apply perm_swap.
Qed.

Lemma leb_flip (x y : string) : String.leb x y = false -> String.leb y x = true.
Proof. intros H. destruct (String.leb_total x y) as [H'|H']; congruence. Qed.

Lemma HdRel_insert_sorted (y x : string) (l : list string) :
  str_le y x -> HdRel str_le y l -> HdRel str_le y (insert_sorted x l).
Proof.
  intros Hyx Hl. destruct l as [|z tl]; cbn.
  - constructor. exact Hyx.
  - destruct (String.leb x z); constructor; [exact Hyx|].
    inversion Hl; assumption.
Qed.

Lemma insert_sorted_sorted (x : string) (l : list string) :
  Sorted str_le l -> Sorted str_le (insert_sorted x l).
Proof.
  induction l as [|y tl IH]; intros Hs; cbn.
  - repeat constructor.
  - destruct (String.leb x y) eqn:E.
    + constructor; [exact Hs|]. constructor. exact E.
    + apply Sorted_inv in Hs as [Htl Hhd].
      constructor; [apply IH; exact Htl|].
      apply HdRel_insert_sorted; [apply leb_flip; exact E|exact Hhd].
Qed.

Lemma js_sort_sorted_perm (l : list string) :
  Sorted str_le (js_sort l) /\ Permutation (js_sort l) l.
Proof.
  induction l as [|x tl [IHs IHp]]; cbn; [split; constructor|].
  split; [apply insert_sorted_sorted; exact IHs|].
  rewrite insert_sorted_perm. apply perm_skip. exact IHp.
Qed.

(** [groupSlices] lists the dataset's slice names in ascending order, each
    exactly as often as it occurs in [groupMediaTypes]; outside a group with
    slices it is empty. *)
Theorem groupSlices_sorted_perm (m : Modal) :
  Sorted str_le (groupSlices m) /\
  Permutation (groupSlices m)
    (if hasGroupSlices (groups m)
     then map gmt_name (datasetGroupMediaTypes m) else []).
Proof.
  unfold groupSlices, groupMediaTypes.
  destruct (hasGroupSlices (groups m)) eqn:H.
  - rewrite (GroupsMoreFacts.hasGroupSlices_isGroup _ H).
    apply js_sort_sorted_perm.
  - split; constructor.
Qed.

Lemma filter_partition_perm {A} (f : A -> bool) (l : list A) :
  Permutation (List.filter f l ++ List.filter (fun x => negb (f x)) l) l.
Proof.
  induction l as [|x tl IH]; cbn; [reflexivity|].
  destruct (f x); cbn.
  - apply perm_skip. exact IH.
  - symmetry. apply Permutation_cons_app. symmetry. exact IH.
Qed.

(** [all3dSlices] and [allNon3dSlices] split the group's slice names:
    together they are a permutation of the names of [groupMediaTypes]. *)
Theorem all3d_non3d_partition (is3d : string -> bool) (m : Modal) :
  Permutation (all3dSlices is3d m ++ allNon3dSlices is3d m)
              (map gmt_name (groupMediaTypes m)).
Proof.
  unfold all3dSlices, allNon3dSlices. rewrite <- map_app.
  apply Permutation_map. apply filter_partition_perm.
Qed.

Definition is_err {A} (r : Res A) : bool :=
  match r with Err _ => true | Ok _ => false end.

(** [fo3dSlice] throws exactly when the group has two or more fo3d slices;
    outside a group it is [undefined]. *)
Theorem fo3dSlice_error_iff (isFo3d : string -> bool) (m : Modal) :
  (is_err (fo3dSlice isFo3d m) = true <->
   2 <= length (List.filter (fun t => isFo3d (gmt_mediaType t)) (groupMediaTypes m))) /\
  (isGroup (groups m) = false -> fo3dSlice isFo3d m = Ok None).
Proof.
  unfold fo3dSlice. rewrite length_map. split.
  - destruct (Nat.ltb_spec 1 (length (List.filter (fun t => isFo3d (gmt_mediaType t))
                                          (groupMediaTypes m)))); cbn;
      split; intros; first [lia | reflexivity | discriminate].
  - intros H. unfold groupMediaTypes. rewrite H. reflexivity.
Qed.

Lemma fo3dSlice_error_iff_witness :
  let m := mkModal (mkState None false None None None None [] ∅) [] None false
             None [] in
  isGroup (groups m) = false /\ fo3dSlice (fun _ => true) m = Ok None.
Proof.
  intros m.
  assert (H : isGroup (groups m) = false) by reflexivity.
  split; [exact H|].
  exact (proj2 (fo3dSlice_error_iff (fun _ => true) m) H).
Defined.

(** [currentSlice] and [currentSlices] agree: outside a group both are
    [null]; when the chosen slice is non-empty (and, in the modal, 3D is not
    pinned) they are that slice and the list of it; otherwise they fall back
    to [pinned3DSampleSlice] and [active3dSlices]. *)
Theorem currentSlice_currentSlices (modal : bool) (m : Modal) :
  let slice := if modal then modalGroupSlice m else groupSlice (groups m) in
  (isGroup (groups m) = false ->
     currentSlice modal m = None /\ currentSlices modal m = None) /\
  (isGroup (groups m) = true -> truthy_str slice = true ->
     (modal && pinned3d m) = false ->
     exists x, slice = Some x /\ currentSlice modal m = Some x /\
               currentSlices modal m = Some [x]) /\
  (isGroup (groups m) = true ->
     (truthy_str slice = false \/ (modal && pinned3d m) = true) ->
     currentSlice modal m = pinned3DSampleSlice m /\
     currentSlices modal m = Some (active3dSlices m)).
Proof.
  intros slice. unfold currentSlice, currentSlices. fold slice.
  split; [|split].
  - intros H. rewrite H. split; reflexivity.
  - intros H Ht Hp. rewrite H, Ht, Hp. cbn.
    destruct slice as [x|]; [|discriminate].
    exists x. cbn in Ht |- *. rewrite Ht. auto.
  - intros H [Ht|Hp]; rewrite H; cbn.
    + rewrite Ht. split; reflexivity.
    + rewrite Hp, orb_true_r. split; reflexivity.
Qed.

Lemma currentSlice_currentSlices_witness :
  let m := mkModal (mkState (Some "group"%string) false None
                      (Some "left"%string) None None [] ∅) [] None false
             None [] in
  isGroup (groups m) = true /\ truthy_str (groupSlice (groups m)) = true /\
  exists x, groupSlice (groups m) = Some x /\ currentSlice false m = Some x /\
            currentSlices false m = Some [x].
Proof.
  intros m.
  assert (H1 : isGroup (groups m) = true) by reflexivity.
  assert (H2 : truthy_str (groupSlice (groups m)) = true) by reflexivity.
  split; [exact H1|]. split; [exact H2|].
  exact (proj1 (proj2 (currentSlice_currentSlices false m)) H1 H2 eq_refl).
Defined.

End SlicesFacts.

Module LabelFacts.
Import Groups GroupsMore.

(** [activeSliceDescriptorLabel] reads [fo3dSlice] before it looks at
    [pinned3d], so a group with two or more fo3d slices makes it throw even
    when 3D is not pinned. *)
Theorem activeSliceDescriptorLabel_fo3d_error (isFo3d : string -> bool)
    (m : Modal) :
  2 <= length (List.filter (fun t => isFo3d (gmt_mediaType t)) (groupMediaTypes m)) ->
  activeSliceDescriptorLabel isFo3d m = Err "can't have more than one fo3d slice".
Proof.
  intros H. unfold activeSliceDescriptorLabel, fo3dSlice. rewrite length_map.
  destruct (Nat.ltb_spec 1 (length (List.filter (fun t => isFo3d (gmt_mediaType t))
                                      (groupMediaTypes m)))); [reflexivity|lia].
Qed.

Lemma activeSliceDescriptorLabel_fo3d_error_witness :
  let m := mkModal (mkState (Some "group"%string) false None None None None [] ∅)
             [mkGroupMediaType "a" "3d"; mkGroupMediaType "b" "3d"] None false
             None [] in
  2 <= length (List.filter (fun t => String.eqb (gmt_mediaType t) "3d")
                      (groupMediaTypes m)) /\
  activeSliceDescriptorLabel (fun t => String.eqb t "3d") m
    = Err "can't have more than one fo3d slice".
Proof.
  intros m.
  assert (H : 2 <= length (List.filter (fun t => String.eqb (gmt_mediaType t) "3d")
                                  (groupMediaTypes m))) by (vm_compute; lia).
  split; [exact H|].
  exact (activeSliceDescriptorLabel_fo3d_error _ m H).
Defined.

Example activeSliceDescriptorLabel_none_active :
  activeSliceDescriptorLabel (fun _ => false)
    (mkModal (mkState (Some "group"%string) false None None None None [] ∅)
       [] None true None []) = Ok (Some "0 slices"%string).
Proof. vm_compute. reflexivity. Qed.

Lemma filter_idem {A} (f : A -> bool) (l : list A) :
  List.filter f (List.filter f l) = List.filter f l.
Proof.
  induction l as [|x tl IH]; cbn; [reflexivity|].
  destruct (f x) eqn:E; simpl; rewrite ?E, ?IH; reflexivity.
Qed.

(** [groupView] drops exactly the GroupBy stages of the view, keeps every
    other stage, and applying it twice is the same as once. *)
Theorem groupView_spec (G : string) (view : list Stage) :
  (forall st, In st (groupView G view) <-> In st view /\ _cls st <> G) /\
  groupView G (groupView G view) = groupView G view.
Proof.
  unfold groupView. split; [|apply filter_idem].
  intros st. rewrite filter_In.
  destruct (String.eqb_spec (_cls st) G); cbn; intuition congruence.
Qed.

Section SampleMapFacts.
Context {MS Sample : Type} (sample_of : MS -> Sample)
        (getPath : Sample -> string -> string).

Lemma find_app {A} (P : A -> bool) (l1 l2 : list A) :
  find P (l1 ++ l2) = match find P l1 with Some x => Some x | None => find P l2 end.
Proof.
  induction l1 as [|x tl IH]; cbn; [reflexivity|].
  destruct (P x); [reflexivity|exact IH].
Qed.

(** In [all3dSlicesToSampleMap] a slice name maps to the last sample whose
    [<groupField>.name] is that name, and is absent when there is none. *)
Theorem all3dSlicesToSampleMap_lookup (groupField k : string) (l : list MS) :
  all3dSlicesToSampleMap sample_of getPath groupField l !! k =
  find (fun s => String.eqb (getPath (sample_of s) (groupField ++ ".name")) k)
       (rev l).
Proof.
  unfold all3dSlicesToSampleMap.
  set (P := fun s => String.eqb (getPath (sample_of s) (groupField ++ ".name")) k).
  assert (Hgen : forall (acc : gmap string MS),
    fold_left (fun acc s => <[getPath (sample_of s) (groupField ++ ".name") := s]> acc)
              l acc !! k =
    match find P (rev l) with Some x => Some x | None => acc !! k end).
  { induction l as [|x tl IH]; intros acc; cbn; [reflexivity|].
    rewrite IH, find_app. destruct (find P (rev tl)); [reflexivity|].
    cbn. unfold P. rewrite lookup_insert.
    destruct (String.eqb_spec (getPath (sample_of x) (groupField ++ ".name")) k);
      case_decide; congruence. }
  rewrite Hgen. destruct (find P (rev l)); reflexivity.
Qed.

End SampleMapFacts.

End LabelFacts.

Module UpdateSamplesMoreFacts.
Import UpdateSamples.

Section Facts.
Context {Sample Rest : Type} (stringify : Sample -> string).

Lemma loop_stores_fst (id : string) (smp : Sample)
    (ss : list (SampleStore (Sample := Sample) (Rest := Rest)))
    (rs : gmap string RelayRecord) :
  (loop_stores stringify id smp ss rs).1 = map (update_store id smp) ss.
Proof.
  revert rs. induction ss as [|s tl IH]; intros rs; cbn; [reflexivity|].
  specialize (IH (fold_left (patch_relay stringify (Some smp))
                   [id; (id ++ "-modal")%string] rs)).
  destruct (loop_stores stringify id smp tl _) as [a b].
  cbn in IH |- *. f_equal. exact IH.
Qed.

Lemma patch_relay_lookup (smp : Sample) (rs : gmap string RelayRecord)
    (i k : string) :
  patch_relay stringify (Some smp) rs i !! k =
  if String.eqb k i
  then option_map (fun r => mkRelayRecord (<["sample" := stringify smp]> (fields r))
                                          (invalidated r)) (rs !! k)
  else rs !! k.
Proof.
  unfold patch_relay.
  destruct (rs !! i) eqn:Ei; destruct (String.eqb_spec k i) as [Hk|Hne].
  - subst k. rewrite lookup_insert_eq, Ei. reflexivity.
  - rewrite lookup_insert_ne by congruence. reflexivity.
  - subst k. rewrite Ei. reflexivity.
  - reflexivity.
Qed.

Lemma loop_stores_snd (id : string) (smp : Sample)
    (ss : list (SampleStore (Sample := Sample) (Rest := Rest)))
    (rs : gmap string RelayRecord) (k : string) :
  ss <> [] ->
  (loop_stores stringify id smp ss rs).2 !! k =
  if String.eqb k id || String.eqb k (id ++ "-modal")
  then option_map (fun r => mkRelayRecord (<["sample" := stringify smp]> (fields r))
                                          (invalidated r)) (rs !! k)
  else rs !! k.
Proof.
  set (upd := fun r : RelayRecord =>
         mkRelayRecord (<["sample" := stringify smp]> (fields r)) (invalidated r)).
  assert (Hidem : forall o, option_map upd (option_map upd o) = option_map upd o).
  { intros [r|]; [|reflexivity]. cbn. unfold upd. cbn.
    rewrite insert_insert_eq. reflexivity. }
  assert (Hpatch : forall rs0,
    fold_left (patch_relay stringify (Some smp)) [id; (id ++ "-modal")%string] rs0 !! k
    = if String.eqb k id || String.eqb k (id ++ "-modal")
      then option_map upd (rs0 !! k) else rs0 !! k).
  { intros rs0. cbn [fold_left]. rewrite !patch_relay_lookup.
    destruct (String.eqb k id), (String.eqb k (id ++ "-modal")); cbn;
      rewrite ?Hidem; reflexivity. }
  revert rs. induction ss as [|s tl IH]; intros rs Hne; [contradiction|].
  cbn [loop_stores].
  destruct (loop_stores stringify id smp tl _) as [a b] eqn:E. cbn [snd].
  destruct tl as [|s' tl'].
  - cbn in E. injection E as <- <-. apply Hpatch.
  - pose proof (IH (fold_left (patch_relay stringify (Some smp))
                    [id; (id ++ "-modal")%string] rs) ltac:(discriminate)) as H.
    rewrite E in H. cbn [snd] in H. rewrite H, Hpatch.
    destruct (String.eqb k id || String.eqb k (id ++ "-modal")); auto.
Qed.

Lemma update_one_no_stores (w : World (Sample := Sample) (Rest := Rest))
    (e : string * option Sample) :
  stores w = [] -> update_one stringify w e = w.
Proof.
  intros H. destruct e as [id [smp|]]; [|reflexivity].
  cbn. rewrite H. cbn. destruct w; cbn in *; subst; reflexivity.
Qed.

(** The Relay writes of [useUpdateSamples] sit inside the loop over the
    looker [stores]: with no looker store, nothing is patched at all. *)
Theorem useUpdateSamples_no_stores (w : World (Sample := Sample) (Rest := Rest))
    (entries : list (string * option Sample)) :
  stores w = [] -> useUpdateSamples stringify w entries = w.
Proof.
  intros H. unfold useUpdateSamples.
  induction entries as [|e tl IH]; cbn; [reflexivity|].
  rewrite update_one_no_stores by exact H. exact IH.
Qed.

(** With at least one looker store, patching sample [id] sets the [sample]
    field of the Relay records [id] and [id-modal] when they exist, to the
    JSON of the sample; their other fields, their invalidation flag and all
    other records are unchanged, and no record is created. *)
Theorem useUpdateSamples_relay (w : World (Sample := Sample) (Rest := Rest))
    (id : string) (smp : Sample) (k : string) :
  stores w <> [] ->
  relay (useUpdateSamples stringify w [(id, Some smp)]) !! k =
  if String.eqb k id || String.eqb k (id ++ "-modal")
  then option_map (fun r => mkRelayRecord (<["sample" := stringify smp]> (fields r))
                                          (invalidated r)) (relay w !! k)
  else relay w !! k.
Proof.
  intros H. unfold useUpdateSamples. cbn [fold_left update_one].
  destruct (loop_stores stringify id smp (stores w) (relay w)) as [a b] eqn:E.
  cbn [relay]. pose proof (loop_stores_snd id smp (stores w) (relay w) k H) as L.
  rewrite E in L. exact L.
Qed.

(** In every looker store, patching sample [id] replaces the [sample] of an
    existing entry [id] (keeping its other fields) and updates its looker if
    there is one; other entries and stores without [id] are unchanged. *)
Theorem useUpdateSamples_stores (w : World (Sample := Sample) (Rest := Rest))
    (id : string) (smp : Sample) :
  Forall2 (fun st st' =>
    forall k,
      samples st' !! k =
        (if String.eqb k id
         then option_map (fun r => mkModalSample smp (ms_rest r)) (samples st !! k)
         else samples st !! k) /\
      lookers st' !! k =
        (if String.eqb k id && bool_decide (is_Some (samples st !! id))
         then option_map (fun _ => smp) (lookers st !! k)
         else lookers st !! k))
    (stores w) (stores (useUpdateSamples stringify w [(id, Some smp)])).
Proof.
  unfold useUpdateSamples. cbn [fold_left update_one].
  pose proof (loop_stores_fst id smp (stores w) (relay w)) as F.
  destruct (loop_stores stringify id smp (stores w) (relay w)) as [a b].
  cbn in F |- *. subst a.
  induction (stores w) as [|st tl IH]; cbn; constructor; [|exact IH].
  intros k. unfold update_store.
  destruct (samples st !! id) as [r|] eqn:Es; cbn.
  - destruct (String.eqb_spec k id) as [->|Hne]; cbn.
    + rewrite lookup_insert_eq, Es. split; [reflexivity|].
      destruct (lookers st !! id) eqn:El; cbn;
        [rewrite lookup_insert_eq|rewrite El]; reflexivity.
    + rewrite lookup_insert_ne by congruence. split; [reflexivity|].
      destruct (lookers st !! id); [rewrite lookup_insert_ne by congruence|];
        reflexivity.
  - rewrite andb_false_r.
    destruct (String.eqb_spec k id) as [->|_]; [rewrite Es|]; split; reflexivity.
Qed.


Lemma update_store_idem (id : string) (smp : Sample)
    (ss : SampleStore (Sample := Sample) (Rest := Rest)) :
  update_store id smp (update_store id smp ss) = update_store id smp ss.
Proof.
  unfold update_store. destruct (samples ss !! id) as [r|] eqn:Es.
  - cbn. rewrite lookup_insert_eq. cbn. rewrite insert_insert_eq. f_equal.
    destruct (lookers ss !! id) eqn:El;
      [rewrite lookup_insert_eq, insert_insert_eq|rewrite El]; reflexivity.
  - rewrite Es. reflexivity.
Qed.

(** Patching the same sample twice has the same effect as patching it once. *)
Theorem useUpdateSamples_idempotent
    (w : World (Sample := Sample) (Rest := Rest)) (id : string) (smp : Sample) :
  let w1 := useUpdateSamples stringify w [(id, Some smp)] in
  useUpdateSamples stringify w1 [(id, Some smp)] = w1.
Proof.
  intros w1.
  destruct (stores w) as [|s tl] eqn:Hs.
  - assert (Hw1 : w1 = w) by (apply useUpdateSamples_no_stores; exact Hs).
    rewrite Hw1. apply useUpdateSamples_no_stores. exact Hs.
  - assert (Hne : stores w <> []) by (rewrite Hs; discriminate).
    assert (Hst1 : stores w1 = map (update_store id smp) (stores w)).
    { unfold w1, useUpdateSamples. cbn [fold_left update_one].
      pose proof (loop_stores_fst id smp (stores w) (relay w)) as F.
      destruct (loop_stores stringify id smp (stores w) (relay w)).
      exact F. }
    assert (Hne1 : stores w1 <> []) by (rewrite Hst1, Hs; discriminate).
    destruct w1 as [ss1 rs1] eqn:Ew1. cbn in Hst1.
    assert (Hrel : forall k, relay (useUpdateSamples stringify w [(id, Some smp)]) !! k
                            = rs1 !! k).
    { intros k. fold w1. rewrite Ew1. reflexivity. }
    unfold useUpdateSamples at 1. cbn [fold_left update_one stores relay].
    pose proof (loop_stores_fst id smp ss1 rs1) as F.
    pose proof (fun k => loop_stores_snd id smp ss1 rs1 k Hne1) as S.
    destruct (loop_stores stringify id smp ss1 rs1) as [a b].
    cbn in F, S. f_equal.
    + rewrite F, Hst1, map_map. apply map_ext. intros x. apply update_store_idem.
    + apply map_eq. intros k. rewrite S, <- (Hrel k).
      rewrite (useUpdateSamples_relay w id smp k Hne).
      destruct (String.eqb k id || String.eqb k (id ++ "-modal")); [|reflexivity].
      destruct (relay w !! k) as [r|]; cbn; [|reflexivity].
      rewrite insert_insert_eq. reflexivity.
Qed.

End Facts.

Lemma useUpdateSamples_no_stores_witness :
  let w := mkWorld (Sample := string) (Rest := unit) []
             {["a"%string := mkRelayRecord ∅ false]} in
  stores w = [] /\
  useUpdateSamples (fun s : string => s) w [("a"%string, Some "x"%string)] = w.
Proof.
  intros w.
  assert (H : stores w = []) by reflexivity.
  split; [exact H|].
  exact (useUpdateSamples_no_stores (fun s : string => s) w _ H).
Defined.

Lemma useUpdateSamples_relay_witness :
  let w := mkWorld (Sample := string) (Rest := unit) [mkSampleStore ∅ ∅]
             {["a"%string := mkRelayRecord {["id"%string := "a"%string]} false]} in
  stores w <> [] /\
  relay (useUpdateSamples (fun s : string => s) w [("a"%string, Some "x"%string)])
    !! "a"%string
  = Some (mkRelayRecord {["sample"%string := "x"%string; "id"%string := "a"%string]}
                        false).
Proof.
  intros w.
  assert (H : stores w <> []) by discriminate.
  split; [exact H|].
  rewrite (useUpdateSamples_relay (fun s : string => s) w "a" "x" "a" H).
  reflexivity.
Defined.

End UpdateSamplesMoreFacts.
